(** * Verification of the command resolver of xrun (src/src/command_parser.rs, src/src/main.rs)

    A TOML document is modelled as the toml crate exposes it: a [Value] with
    seven shapes, and a [Table] ([toml::map::Map<String, Value>]) as an
    association list of (key, value) entries whose list order is the map's
    iteration order and whose lookup returns the entry for the key. *)

From Stdlib Require Import String Ascii List ZArith Bool Lia.
Import ListNotations.
Open Scope string_scope.

(** ** Data model *)

Set Warnings "-register-all".

(** [toml::Value]; a float is kept as its IEEE-754 bit pattern and a
    datetime as its textual form: the resolver only reports their kind. *)
Inductive Value : Type :=
| VString (s : string)
| VInteger (z : Z)
| VFloat (bits : Z)
| VBoolean (b : bool)
| VDatetime (d : string)
| VArray (items : list Value)
| VTable (t : list (string * Value)).

(** [toml::Table], i.e. [toml::map::Map<String, Value>]. *)
Definition Table : Type := list (string * Value).

(** [Map::get]: the value stored under [k]. *)
Fixpoint get (t : Table) (k : string) : option Value :=
  match t with
  | [] => None
  | (k', v) :: rest => if String.eqb k' k then Some v else get rest k
  end.

(** [Value::as_str]. *)
Definition as_str (v : Value) : option string :=
  match v with
  | VString s => Some s
  | _ => None
  end.

(** [Value::get] with a string index: a lookup when the value is a table,
    [None] for every other kind. *)
Definition value_get (v : Value) (k : string) : option Value :=
  match v with
  | VTable t => get t k
  | _ => None
  end.

(** [value_as_name]. *)
Definition value_as_name (v : Value) : string :=
  match v with
  | VString _ => "String"
  | VInteger _ => "Integer"
  | VFloat _ => "Float"
  | VBoolean _ => "Boolean"
  | VDatetime _ => "Datetime"
  | VArray _ => "Array"
  | VTable _ => "Table"
  end.

(** The payloads of [io::Error] and [toml::de::Error]. *)
Record IoError_t : Type := { io_message : string }.
Record DeError_t : Type := { de_message : string }.

(** [InvalidContentReason]. *)
Inductive InvalidContentReason : Type :=
| NotTomlString (key : string) (value : Value)
| NotTomlTable (key : string) (value : Value)
| MissingKey (key : string).

(** [CommandParseError]. *)
Inductive CommandParseError : Type :=
| IoError (e : IoError_t)
| TomlDeError (e : DeError_t)
| CommandNotFoundError (component : string)
| CommandContentInvalid (reason : InvalidContentReason).

(** [Result<T, E>]. *)
Inductive result (T E : Type) : Type :=
| Ok (t : T)
| Err (e : E).
Arguments Ok {T E} t.
Arguments Err {T E} e.

(** The [?] operator, with the [From] conversion given explicitly. *)
Definition bind_err {T U E F : Type} (conv : E -> F) (r : result T E)
    (k : T -> result U F) : result U F :=
  match r with
  | Ok t => k t
  | Err e => Err (conv e)
  end.

(** [Option::and_then]. *)
Definition and_then {A B : Type} (o : option A) (f : A -> option B) : option B :=
  match o with
  | Some a => f a
  | None => None
  end.

(** [HelpPair(Option<String>, Option<String>)]. *)
Inductive HelpPair : Type :=
| HP (name : option string) (desc : option string).

(** ** The resolver *)

Section Resolver.

(** [fs::read_to_string] and [toml::from_str::<Table>]: the file system and
    the toml crate's parser, not code of this repository. *)
Variable read_to_string : string -> result string IoError_t.
Variable from_str : string -> result Table DeError_t.

(** [toml_to_map]. *)
Definition toml_to_map (toml_str : string) : result Table CommandParseError :=
  bind_err TomlDeError (from_str toml_str) (fun toml_data => Ok toml_data).

(** The [for token in command] loop of [get_command_toml], with its mutable
    state [toml_data], [command_not_found] and [error_string], the early
    [return] of the [NotTomlTable] case, and the final test after the loop. *)
Fixpoint walk (command : list string) (toml_data : Table)
    (command_not_found : bool) (error_string : string)
    : result Table CommandParseError :=
  match command with
  | [] =>
      if command_not_found then Err (CommandNotFoundError error_string)
      else Ok toml_data
  | token :: rest =>
      if negb command_not_found then
        match get toml_data token with
        | Some (VTable next_table) => walk rest next_table command_not_found error_string
        | Some value => Err (CommandContentInvalid (NotTomlTable token value))
        | None => walk rest toml_data true (error_string ++ token)
        end
      else walk rest toml_data command_not_found (error_string ++ " " ++ token)
  end.

(** [get_command_toml]. *)
Definition get_command_toml (path : string) (command : list string)
    : result Table CommandParseError :=
  bind_err IoError (read_to_string path) (fun toml_str =>
  bind_err (fun e => e) (toml_to_map toml_str) (fun toml_data =>
  walk command toml_data false "")).

(** [get_command]. *)
Definition get_command (path : string) (command : list string)
    : result string CommandParseError :=
  bind_err (fun e => e) (get_command_toml path command) (fun toml_data =>
  match get toml_data "command" with
  | Some exec_cmd =>
      match as_str exec_cmd with
      | Some exec_cmd' => Ok exec_cmd'
      | None => Err (CommandContentInvalid (NotTomlString "command" exec_cmd))
      end
  | None => Err (CommandContentInvalid (MissingKey "command"))
  end).

(** The body of the [for (k, v) in &toml_data] loop of [get_command_help]:
    one [push] per entry whose key is neither "desc" nor "command". *)
Definition help_step (help_pairs : list HelpPair) (kv : string * Value)
    : list HelpPair :=
  let (k, v) := kv in
  if negb (String.eqb k "desc") && negb (String.eqb k "command") then
    match and_then (value_get v "desc") as_str with
    | Some desc => (help_pairs ++ [HP (Some k) (Some desc)])%list
    | None => (help_pairs ++ [HP (Some k) None])%list
    end
  else help_pairs.

(** [get_command_help]. *)
Definition get_command_help (path : string) (command : list string)
    : result (list HelpPair) CommandParseError :=
  let help_pairs := @nil HelpPair in
  bind_err (fun e => e) (get_command_toml path command) (fun toml_data =>
  let help_pairs :=
    match and_then (get toml_data "desc") as_str with
    | Some desc => (help_pairs ++ [HP None (Some desc)])%list
    | None => (help_pairs ++ [HP None None])%list
    end in
  Ok (fold_left help_step toml_data help_pairs)).

End Resolver.

(** ** The command-line layer (main.rs) *)

(** [Action]. *)
Inductive Action : Type :=
| Exec
| Help.

(** Where [main] hands over: an exit with a status code, or a call of
    [command_runner] or [help_runner] with the config path and the tokens. *)
Inductive MainOutcome : Type :=
| Exit (code : Z)
| CommandRunner (path : string) (command : list string) (passthrough : bool)
| HelpRunner (path : string) (command : list string).

(** [s.starts_with('-')]. *)
Definition starts_with_dash (s : string) : bool :=
  match s with
  | String c _ => Ascii.eqb c "-"%char
  | EmptyString => false
  end.

(** The [for option in options] loop of [main]: [None] is the
    [Unknown flag] exit. *)
Fixpoint parse_options (options : list string) (action : Action)
    (passthrough : bool) : option (Action * bool) :=
  match options with
  | [] => Some (action, passthrough)
  | option :: rest =>
      if String.eqb option "--help" || String.eqb option "-h" then
        parse_options rest Help passthrough
      else if String.eqb option "--passthrough" || String.eqb option "-p" then
        parse_options rest action true
      else None
  end.

Definition action_is_help (a : Action) : bool :=
  match a with
  | Help => true
  | Exec => false
  end.

(** [main] up to the call of a runner. [args] is [env::args().skip(1)];
    [config_file] is the outcome of the xdg lookup of [command.toml]
    ([None] when it is absent, after which [main] exits with 1). *)
Definition main_dispatch (config_file : option string) (args : list string)
    : MainOutcome :=
  let (options, command) := partition starts_with_dash args in
  match parse_options options Exec false with
  | None => Exit 1
  | Some (action, passthrough) =>
      if (match command with [] => true | _ => false end)
         && negb (action_is_help action) then Exit 1
      else
        match config_file with
        | None => Exit 1
        | Some path =>
            match action with
            | Exec => CommandRunner path command passthrough
            | Help => HelpRunner path command
            end
        end
  end.

(** ** Messages, runners and the whole of [main] *)

(** "\n". *)
Definition nl : string := String "010"%char EmptyString.

(** [impl Display for InvalidContentReason]. *)
Definition display_reason (r : InvalidContentReason) : string :=
  match r with
  | NotTomlString component value =>
      "Expected key '" ++ component ++ "' to be String but got " ++ value_as_name value
  | NotTomlTable component value =>
      "Expected key '" ++ component ++ "' to be Table but got " ++ value_as_name value
  | MissingKey key => "Expected key '" ++ key ++ "' but it is not present"
  end.

(** [impl Display for CommandParseError]; the [Display] texts of [io::Error]
    and [toml::de::Error] are their messages. *)
Definition display_error (e : CommandParseError) : string :=
  match e with
  | IoError err => io_message err
  | TomlDeError err => "TOML parse error - " ++ de_message err
  | CommandNotFoundError err => "Command `" ++ err ++ "` not found"
  | CommandContentInvalid err => "Command content invalid - " ++ display_reason err
  end.

(** What the process writes and its exit status; [Panicked] is a Rust panic. *)
Record Output : Type := { stdout : string; stderr : string; exit_code : Z }.

Inductive Outcome : Type :=
| Exited (o : Output)
| Panicked (msg : string).

(** [or_disp_and_die] on an [Err]: the message on stderr, status 1. *)
Definition disp_and_die (err : CommandParseError) : Outcome :=
  Exited {| stdout := ""; stderr := "Error: " ++ display_error err ++ nl; exit_code := 1 |}.

(** [ExitStatus]: [code()] and [signal()]. *)
Record ExitStatus : Type := { status_code : option Z; status_signal : option Z }.

(** [str::ends_with]. *)
Fixpoint ends_with (s suffix : string) : bool :=
  if String.eqb s suffix then true
  else match s with
       | String _ s' => ends_with s' suffix
       | EmptyString => false
       end.

(** The arguments [command_runner] gives the shell: [-i] for bash, zsh and
    fish, then [-c] and the command. *)
Definition shell_args (shell exec_command : string) : list string :=
  let args :=
    if ends_with shell "bash" || ends_with shell "zsh" || ends_with shell "fish"
    then ["-i"] else [] in
  (args ++ ["-c"; exec_command])%list.

(** [const PROG_NAME]. *)
Definition PROG_NAME : string := "srun".

Definition is_base (hp : HelpPair) : bool :=
  match hp with
  | HP None _ => true
  | HP (Some _) _ => false
  end.

(** One line of the [commands:] block of [help_runner]. *)
Definition help_line (out : string) (hp : HelpPair) : string :=
  match hp with
  | HP (Some cmd) (Some desc) => out ++ "    " ++ cmd ++ ": " ++ desc ++ nl
  | HP (Some cmd) None => out ++ "    " ++ cmd ++ nl
  | HP None _ => out
  end.

(** The text [help_runner] prints, one [print!] after the other. *)
Definition help_text (command : list string) (help_pairs : list HelpPair) : string :=
  let many := Nat.ltb 1 (length help_pairs) in
  let out := "usage: " ++ PROG_NAME in
  let out := fold_left (fun o c => o ++ " " ++ c) command out in
  let out := if many then out ++ " [command]" else out in
  let out := out ++ nl in
  let out :=
    match find is_base help_pairs with
    | Some (HP _ (Some desc)) =>
        let out := out ++ desc ++ nl in
        if many then out ++ nl else out
    | _ => out
    end in
  if many then fold_left help_line help_pairs (out ++ "commands:" ++ nl) else out.

Section Program.

Variable read_to_string : string -> result string IoError_t.
Variable from_str : string -> result Table DeError_t.
(** [Command::new(shell).args(..).spawn()?] followed by [wait()?]: the
    operating system, not code of this repository. *)
Variable spawn : string -> list string -> result ExitStatus IoError_t.

(** [command_runner], with [or_disp_and_die] applied to its error;
    [shell_env] is [env::var("SHELL")] ([None] when unset). *)
Definition command_runner (shell_env : option string) (path : string)
    (command : list string) (passthrough : bool) : Outcome :=
  match get_command read_to_string from_str path command with
  | Err e => disp_and_die e
  | Ok exec_command =>
      if passthrough then
        Exited {| stdout := exec_command ++ nl; stderr := ""; exit_code := 125 |}
      else
        let shell := match shell_env with Some s => s | None => "sh" end in
        match spawn shell (shell_args shell exec_command) with
        | Err e => disp_and_die (IoError e)
        | Ok status =>
            match status_code status with
            | Some code => Exited {| stdout := ""; stderr := ""; exit_code := code |}
            | None =>
                match status_signal status with
                | Some signal =>
                    Exited {| stdout := ""; stderr := ""; exit_code := 128 + signal |}
                | None => Panicked "Unknown exit status"
                end
            end
        end
  end.

(** [help_runner], with [or_disp_and_die] applied to its error. *)
Definition help_runner (path : string) (command : list string) : Outcome :=
  match get_command_help read_to_string from_str path command with
  | Err e => disp_and_die e
  | Ok help_pairs =>
      Exited {| stdout := help_text command help_pairs; stderr := ""; exit_code := 0 |}
  end.

(** The [for option in options] loop of [main], returning the first unknown
    flag. *)
Fixpoint option_loop (options : list string) (action : Action)
    (passthrough : bool) : result (Action * bool) string :=
  match options with
  | [] => Ok (action, passthrough)
  | option :: rest =>
      if String.eqb option "--help" || String.eqb option "-h" then
        option_loop rest Help passthrough
      else if String.eqb option "--passthrough" || String.eqb option "-p" then
        option_loop rest action true
      else Err option
  end.

(** [main]. [xdg] is the config lookup: [Err d] when
    [BaseDirectories::with_prefix] fails ([d] is the error as [main]'s
    [Err] return prints it), [Ok None] when no [command.toml] is found. *)
Definition main_program (xdg : result (option string) string)
    (shell_env : option string) (args : list string) : Outcome :=
  let (options, command) := partition starts_with_dash args in
  match option_loop options Exec false with
  | Err option =>
      Exited {| stdout := ""; stderr := "Unknown flag: " ++ option ++ nl; exit_code := 1 |}
  | Ok (action, passthrough) =>
      if (match command with [] => true | _ => false end)
         && negb (action_is_help action) then
        Exited {| stdout := ""; stderr := "Error: No command provided" ++ nl; exit_code := 1 |}
      else
        match xdg with
        | Err d => Exited {| stdout := ""; stderr := "Error: " ++ d ++ nl; exit_code := 1 |}
        | Ok None =>
            Exited {| stdout := "";
                      stderr := "Error: command.toml does not exist in config directory" ++ nl;
                      exit_code := 1 |}
        | Ok (Some path) =>
            match action with
            | Exec => command_runner shell_env path command passthrough
            | Help => help_runner path command
            end
        end
  end.

End Program.

(** The flags of [main]. *)
Definition is_help_flag (option : string) : bool :=
  String.eqb option "--help" || String.eqb option "-h".
Definition is_passthrough_flag (option : string) : bool :=
  String.eqb option "--passthrough" || String.eqb option "-p".

(** ** Sample configuration

    The [TOML_COMMAND_DATA] document of the unit tests, with the table
    entries in key order:
<<
    [foo]
    bar = { command = "bar exec", desc = "bar desc" }
    qux = "quux"
    desc = "foo desc"
    command = { }
    [baz]
>> *)
Definition sample_root : Table :=
  [("baz", VTable []);
   ("foo", VTable [("bar", VTable [("command", VString "bar exec");
                                   ("desc", VString "bar desc")]);
                   ("command", VTable []);
                   ("desc", VString "foo desc");
                   ("qux", VString "quux")])].

Definition sample_read (path : string) : result string IoError_t := Ok "".
Definition sample_parse (root : Table) (s : string) : result Table DeError_t :=
  Ok root.

Example unit_get_command_valid :
  get_command sample_read (sample_parse sample_root) "cmd.toml" ["foo"; "bar"]
  = Ok "bar exec".
Proof. reflexivity. Qed.

Example unit_get_command_no_command :
  get_command sample_read (sample_parse sample_root) "cmd.toml"
    ["foo"; "bar"; "baz"; "qux"; "quux"]
  = Err (CommandNotFoundError "baz qux quux").
Proof. reflexivity. Qed.

Example unit_get_command_empty_command :
  get_command sample_read (sample_parse sample_root) "cmd.toml" ["baz"]
  = Err (CommandContentInvalid (MissingKey "command")).
Proof. reflexivity. Qed.

Example unit_get_command_not_table :
  get_command sample_read (sample_parse sample_root) "cmd.toml" ["foo"; "qux"]
  = Err (CommandContentInvalid (NotTomlTable "qux" (VString "quux"))).
Proof. reflexivity. Qed.

Example unit_get_command_help :
  get_command_help sample_read (sample_parse sample_root) "cmd.toml" ["foo"]
  = Ok [HP None (Some "foo desc"); HP (Some "bar") (Some "bar desc");
        HP (Some "qux") None].
Proof. reflexivity. Qed.

(** ** Lemmas on the walk *)

Lemma string_app_assoc (a b c : string) : ((a ++ b) ++ c) = (a ++ (b ++ c)).
Proof. induction a as [|x a IH]; simpl; [reflexivity | now rewrite IH]. Qed.

(** The accumulation of [error_string] in not-found mode. *)
Definition append_token (acc token : string) : string := acc ++ " " ++ token.

(** Once [command_not_found] is set, the walk only accumulates tokens. *)
Lemma walk_not_found (rest : list string) (t : Table) (acc : string) :
  walk rest t true acc = Err (CommandNotFoundError (fold_left append_token rest acc)).
Proof.
  revert acc; induction rest as [|token rest IH]; intros acc; simpl.
  - reflexivity.
  - apply IH.
Qed.

Lemma fold_append_token_concat (rest : list string) (acc t : string) :
  fold_left append_token rest (acc ++ t) = acc ++ String.concat " " (t :: rest).
Proof.
  revert acc t; induction rest as [|x rest IH]; intros acc t; simpl.
  - reflexivity.
  - unfold append_token at 2.
    replace ((acc ++ t) ++ " " ++ x) with ((acc ++ t ++ " ") ++ x)
      by (rewrite !string_app_assoc; reflexivity).
    rewrite IH. rewrite !string_app_assoc. reflexivity.
Qed.

Lemma walk_not_found_ok (rest : list string) (t t' : Table) (acc : string) :
  walk rest t true acc <> Ok t'.
Proof. rewrite walk_not_found; discriminate. Qed.

(** A walk that matched every token of [pre] continues from the table it
    reached. *)
Lemma walk_app (pre : list string) (t t' : Table) (e : string) :
  walk pre t false e = Ok t' ->
  forall l, walk (pre ++ l) t false e = walk l t' false e.
Proof.
  revert t; induction pre as [|token pre IH]; intros t H l; simpl in *.
  - now inversion H.
  - destruct (get t token) as [v|] eqn:Hg; [|now apply walk_not_found_ok in H].
    destruct v; try discriminate H. now apply IH.
Qed.

Lemma get_command_toml_ok (rd : string -> result string IoError_t)
    (fs : string -> result Table DeError_t) (path s : string) (root : Table)
    (command : list string) :
  rd path = Ok s -> fs s = Ok root ->
  get_command_toml rd fs path command = walk command root false "".
Proof. intros Hr Hf; unfold get_command_toml, toml_to_map; rewrite Hr; simpl; now rewrite Hf. Qed.

(** ** C1: the not-found suffix *)

(** C1. When the walk has matched the tokens [pre] (each one naming a
    table) and the table reached has no entry for the next token [t],
    [get_command] fails with [CommandNotFoundError] carrying the tokens
    from [t] to the last one joined by single spaces, whatever the tokens
    after [t] would have matched. *)
Theorem get_command_not_found_suffix (rd : string -> result string IoError_t)
    (fs : string -> result Table DeError_t) (path s : string)
    (root node : Table) (pre rest : list string) (t : string) :
  rd path = Ok s -> fs s = Ok root ->
  walk pre root false "" = Ok node -> get node t = None ->
  get_command rd fs path (pre ++ t :: rest)
  = Err (CommandNotFoundError (String.concat " " (t :: rest))).
Proof.
  intros Hr Hf Hw Hg. unfold get_command.
  rewrite (get_command_toml_ok rd fs path s root _ Hr Hf).
  rewrite (walk_app pre root node "" Hw). simpl. rewrite Hg.
  rewrite walk_not_found.
  pose proof (fold_append_token_concat rest "" t) as E; simpl in E.
  now rewrite E.
Qed.

(** Witness of C1 on the sample configuration: [foo] is a table without a
    [baz] entry; the root table has a [foo] entry, yet [foo] after the miss
    is reported too. *)
Lemma get_command_not_found_suffix_witness :
  walk ["foo"] sample_root false "" = Ok (match get sample_root "foo" with
                                          | Some (VTable t) => t | _ => [] end)
  /\ get_command sample_read (sample_parse sample_root) "cmd.toml"
       (["foo"] ++ "baz" :: ["foo"; "bar"])
     = Err (CommandNotFoundError "baz foo bar").
Proof.
  split; [reflexivity|].
  exact (get_command_not_found_suffix sample_read (sample_parse sample_root)
           "cmd.toml" "" sample_root _ ["foo"] ["foo"; "bar"] "baz"
           eq_refl eq_refl eq_refl eq_refl).
Defined.

(** ** C2: a token naming a non-table value stops the walk *)

(** C2. When the walk has matched the tokens [pre] and the table reached
    maps the next token [t] to a value [v] that is not a table, [get_command]
    fails with [NotTomlTable t v] whatever tokens follow [t]; and once the
    walk is in not-found mode it never fails with an invalid-content error. *)
Theorem get_command_not_a_table (rd : string -> result string IoError_t)
    (fs : string -> result Table DeError_t) (path s : string)
    (root node : Table) (pre : list string) (t : string) (v : Value) :
  rd path = Ok s -> fs s = Ok root ->
  walk pre root false "" = Ok node -> get node t = Some v ->
  (forall sub, v <> VTable sub) ->
  (forall rest, get_command rd fs path (pre ++ t :: rest)
                = Err (CommandContentInvalid (NotTomlTable t v)))
  /\ (forall l tbl acc reason, walk l tbl true acc <> Err (CommandContentInvalid reason)).
Proof.
  intros Hr Hf Hw Hg Hv. split.
  - intros rest. unfold get_command.
    rewrite (get_command_toml_ok rd fs path s root _ Hr Hf).
    rewrite (walk_app pre root node "" Hw). simpl. rewrite Hg.
    destruct v; try reflexivity. exfalso; now apply (Hv t0).
  - intros l tbl acc reason. rewrite walk_not_found. discriminate.
Qed.

(** Witness of C2: in the sample configuration [foo qux] names the string
    [quux]; the tokens after [qux] are not looked at. *)
Lemma get_command_not_a_table_witness :
  get_command sample_read (sample_parse sample_root) "cmd.toml"
    (["foo"] ++ "qux" :: ["bar"; "dne"])
  = Err (CommandContentInvalid (NotTomlTable "qux" (VString "quux"))).
Proof.
  refine (proj1 (get_command_not_a_table sample_read (sample_parse sample_root)
           "cmd.toml" "" sample_root
           (match get sample_root "foo" with Some (VTable t) => t | _ => [] end)
           ["foo"] "qux" (VString "quux") eq_refl eq_refl eq_refl eq_refl _)
           ["bar"; "dne"]).
  intros sub H; discriminate H.
Defined.

(** ** C3: the [command] field of the node reached *)

(** C3. When the walk reaches a node, [get_command] inspects that node's
    [command] entry: absent gives [MissingKey "command"], a value that is not
    a string gives [NotTomlString "command" v] (whose kind name is not
    "String"), and a string is returned unchanged. *)
Theorem get_command_final_node (rd : string -> result string IoError_t)
    (fs : string -> result Table DeError_t) (path : string)
    (command : list string) (node : Table) :
  get_command_toml rd fs path command = Ok node ->
  (get node "command" = None ->
     get_command rd fs path command = Err (CommandContentInvalid (MissingKey "command")))
  /\ (forall v, get node "command" = Some v -> as_str v = None ->
        get_command rd fs path command
        = Err (CommandContentInvalid (NotTomlString "command" v))
        /\ value_as_name v <> "String")
  /\ (forall c, get node "command" = Some (VString c) ->
        get_command rd fs path command = Ok c).
Proof.
  intros H. unfold get_command. rewrite H. simpl.
  split; [|split].
  - intros Hc; now rewrite Hc.
  - intros v Hc Hs. rewrite Hc, Hs. split; [reflexivity|].
    destruct v; simpl in *; discriminate.
  - intros c Hc. now rewrite Hc.
Qed.

(** Witness of C3 on the three nodes [foo], [baz] and [foo bar] of the
    sample configuration. *)
Lemma get_command_final_node_witness :
  get_command sample_read (sample_parse sample_root) "cmd.toml" ["baz"]
    = Err (CommandContentInvalid (MissingKey "command"))
  /\ get_command sample_read (sample_parse sample_root) "cmd.toml" ["foo"]
    = Err (CommandContentInvalid (NotTomlString "command" (VTable [])))
  /\ get_command sample_read (sample_parse sample_root) "cmd.toml" ["foo"; "bar"]
    = Ok "bar exec".
Proof.
  split; [|split].
  - apply (get_command_final_node sample_read (sample_parse sample_root)
             "cmd.toml" ["baz"] [] eq_refl); reflexivity.
  - apply (get_command_final_node sample_read (sample_parse sample_root)
             "cmd.toml" ["foo"] _ eq_refl); reflexivity.
  - apply (get_command_final_node sample_read (sample_parse sample_root)
             "cmd.toml" ["foo"; "bar"] _ eq_refl); reflexivity.
Defined.

(** ** C5: exec and help modes share the walk and its errors *)

(** C5. Whenever [get_command_toml] fails (reading, parsing, a token not
    found or a token naming a non-table), [get_command] and [get_command_help]
    fail with that same error. *)
Theorem get_command_help_same_walk_errors (rd : string -> result string IoError_t)
    (fs : string -> result Table DeError_t) (path : string)
    (command : list string) (e : CommandParseError) :
  get_command_toml rd fs path command = Err e ->
  get_command rd fs path command = Err e
  /\ get_command_help rd fs path command = Err e.
Proof. intros H; unfold get_command, get_command_help; rewrite H; now split. Qed.

(** Witness of C5: [dne c1] on the sample configuration. *)
Lemma get_command_help_same_walk_errors_witness :
  get_command sample_read (sample_parse sample_root) "cmd.toml" ["dne"; "c1"]
    = Err (CommandNotFoundError "dne c1")
  /\ get_command_help sample_read (sample_parse sample_root) "cmd.toml" ["dne"; "c1"]
    = Err (CommandNotFoundError "dne c1").
Proof.
  apply get_command_help_same_walk_errors. reflexivity.
Defined.

(** ** The help listing *)

(** The entries [get_command_help] lists: keys other than "desc" and
    "command". *)
Definition help_eligible (kv : string * Value) : bool :=
  negb (String.eqb (fst kv) "desc") && negb (String.eqb (fst kv) "command").

Definition child_pair (kv : string * Value) : HelpPair :=
  HP (Some (fst kv)) (and_then (value_get (snd kv) "desc") as_str).

Lemma fold_help_step (l : Table) (acc : list HelpPair) :
  fold_left help_step l acc = (acc ++ map child_pair (filter help_eligible l))%list.
Proof.
  revert acc; induction l as [|[k v] l IH]; intros acc; simpl.
  - now rewrite app_nil_r.
  - unfold help_eligible at 1; simpl.
    destruct (negb (String.eqb k "desc") && negb (String.eqb k "command")).
    + unfold child_pair at 1; simpl.
      destruct (and_then (value_get v "desc") as_str) eqn:Hd;
        rewrite IH, <- app_assoc; reflexivity.
    + apply IH.
Qed.

Lemma get_command_help_ok (rd : string -> result string IoError_t)
    (fs : string -> result Table DeError_t) (path : string)
    (command : list string) (node : Table) :
  get_command_toml rd fs path command = Ok node ->
  get_command_help rd fs path command
  = Ok (HP None (and_then (get node "desc") as_str)
        :: map child_pair (filter help_eligible node)).
Proof.
  intros H. unfold get_command_help. rewrite H. simpl.
  rewrite fold_help_step.
  destruct (and_then (get node "desc") as_str); reflexivity.
Qed.

Lemma filter_nil_iff {A : Type} (p : A -> bool) (l : list A) :
  filter p l = [] <-> forall x, In x l -> p x = false.
Proof.
  induction l as [|a l IH]; simpl.
  - split; [intros _ x []|reflexivity].
  - destruct (p a) eqn:Ha; split.
    + discriminate.
    + intros H. rewrite (H a (or_introl eq_refl)) in Ha. discriminate.
    + intros H x [<-|Hx]; [exact Ha|]. now apply IH.
    + intros H. apply IH. intros x Hx. apply H. now right.
Qed.

Lemma help_eligible_false (k : string) (v : Value) :
  help_eligible (k, v) = false <-> k = "desc" \/ k = "command".
Proof.
  unfold help_eligible; simpl.
  destruct (String.eqb_spec k "desc"), (String.eqb_spec k "command"); simpl;
    intuition congruence.
Qed.

(** ** C4: shape of the help listing *)

(** C4. When the walk reaches a node, [get_command_help] returns the pair
    [HP None desc] of the node itself (its string [desc] or [None]) followed
    by one [HP (Some k) desc] for each entry [k] of the node other than
    "desc" and "command", in the table's order; the listing has length 1
    exactly when the node has no such entry. *)
Theorem get_command_help_final_node (rd : string -> result string IoError_t)
    (fs : string -> result Table DeError_t) (path : string)
    (command : list string) (node : Table) :
  get_command_toml rd fs path command = Ok node ->
  exists hs,
    get_command_help rd fs path command = Ok hs
    /\ hs = HP None (and_then (get node "desc") as_str)
            :: map (fun kv => HP (Some (fst kv)) (and_then (value_get (snd kv) "desc") as_str))
                 (filter (fun kv => negb (String.eqb (fst kv) "desc")
                                    && negb (String.eqb (fst kv) "command")) node)
    /\ (length hs = 1%nat <->
        forall k v, In (k, v) node -> k = "desc" \/ k = "command").
Proof.
  intros H. eexists; split; [exact (get_command_help_ok rd fs path command node H)|].
  split; [reflexivity|].
  simpl. rewrite length_map. split.
  - intros Hl k v Hin. apply (proj1 (help_eligible_false k v)).
    destruct (filter help_eligible node) eqn:Hf; [|discriminate].
    now apply (proj1 (filter_nil_iff help_eligible node) Hf).
  - intros Hall. enough (filter help_eligible node = []) as -> by reflexivity.
    apply filter_nil_iff. intros [k v] Hin. apply (proj2 (help_eligible_false k v)).
    exact (Hall k v Hin).
Qed.

(** Witness of C4: [s] of the integration tests' configuration, and its
    child [c2], a node without listed entries. *)
Definition basic_root : Table :=
  [("s", VTable [("c1", VTable [("command", VString "echo c1 ran");
                                ("desc", VString "c1 desc")]);
                 ("c2", VTable [("command", VString "echo c2 ran")]);
                 ("desc", VString "s desc")])].

Lemma get_command_help_final_node_witness :
  get_command_help sample_read (sample_parse basic_root) "cmd.toml" ["s"]
    = Ok [HP None (Some "s desc"); HP (Some "c1") (Some "c1 desc"); HP (Some "c2") None]
  /\ get_command_help sample_read (sample_parse basic_root) "cmd.toml" ["s"; "c2"]
    = Ok [HP None None].
Proof.
  split.
  - destruct (get_command_help_final_node sample_read (sample_parse basic_root)
                "cmd.toml" ["s"] _ eq_refl) as [hs [Hh [-> _]]].
    exact Hh.
  - destruct (get_command_help_final_node sample_read (sample_parse basic_root)
                "cmd.toml" ["s"; "c2"] _ eq_refl) as [hs [Hh [-> _]]].
    exact Hh.
Defined.

(** ** C10: a [desc] that is not a string is treated as absent *)

(** C10. When the walk reaches a node, [get_command_help] succeeds; if the
    node's [desc] is present but not a string its own pair is [HP None None],
    and each listed child whose [desc] is present but not a string gets the
    pair [HP (Some k) None]. *)
Theorem get_command_help_desc_not_string (rd : string -> result string IoError_t)
    (fs : string -> result Table DeError_t) (path : string)
    (command : list string) (node : Table) :
  get_command_toml rd fs path command = Ok node ->
  exists hs,
    get_command_help rd fs path command = Ok hs
    /\ (forall d, get node "desc" = Some d -> as_str d = None ->
          hd_error hs = Some (HP None None))
    /\ (forall k v d, In (k, v) node -> k <> "desc" -> k <> "command" ->
          value_get v "desc" = Some d -> as_str d = None ->
          In (HP (Some k) None) hs).
Proof.
  intros H. eexists; split; [exact (get_command_help_ok rd fs path command node H)|].
  split.
  - intros d Hd Hs. simpl. rewrite Hd; simpl. now rewrite Hs.
  - intros k v d Hin Hk1 Hk2 Hv Hs. right.
    replace (HP (Some k) None) with (child_pair (k, v))
      by (unfold child_pair; simpl; rewrite Hv; simpl; now rewrite Hs).
    apply in_map. apply filter_In. split; [exact Hin|].
    destruct (help_eligible (k, v)) eqn:He; [reflexivity|].
    apply help_eligible_false in He. tauto.
Qed.

(** Witness of C10: a node whose [desc] is an integer and whose child [c]
    has a boolean [desc]. *)
Definition odd_desc_root : Table :=
  [("s", VTable [("c", VTable [("command", VString "true");
                               ("desc", VBoolean true)]);
                 ("desc", VInteger 3)])].

Lemma get_command_help_desc_not_string_witness :
  get_command_help sample_read (sample_parse odd_desc_root) "cmd.toml" ["s"]
    = Ok [HP None None; HP (Some "c") None].
Proof.
  destruct (get_command_help_desc_not_string sample_read (sample_parse odd_desc_root)
              "cmd.toml" ["s"] _ eq_refl) as [hs [Hh _]].
  rewrite Hh. vm_compute in Hh. now injection Hh as <-.
Defined.

(** ** C7: a node that is both a command and a subtree *)

Lemma get_in_nodup (t : Table) (k : string) (v : Value) :
  NoDup (map fst t) -> In (k, v) t -> get t k = Some v.
Proof.
  induction t as [|[k' v'] t IH]; simpl; intros Hnd Hin; [contradiction|].
  inversion Hnd as [|? ? Hnotin Hnd']; subst.
  destruct Hin as [Heq|Hin].
  - inversion Heq; subst. now rewrite String.eqb_refl.
  - destruct (String.eqb_spec k' k) as [->|]; [|now apply IH].
    exfalso; apply Hnotin. change k with (fst (k, v)). now apply in_map.
Qed.

(** A node with a string [command] and a child table keyed "desc": help
    mode lists no child, while exec mode descends into that child. *)
Definition desc_child_root : Table :=
  [("s", VTable [("command", VString "run");
                 ("desc", VTable [("command", VString "sub")])])].

(** C7 (counterexample). [s] has the command "run" and the child subtree
    [desc]; [get_command] returns "run" and resolves [s desc] to "sub", but
    the help listing of [s] is the self pair alone and lists no child. *)
Lemma command_and_subtree_counterexample :
  get_command sample_read (sample_parse desc_child_root) "cmd.toml" ["s"] = Ok "run"
  /\ get_command sample_read (sample_parse desc_child_root) "cmd.toml" ["s"; "desc"]
     = Ok "sub"
  /\ get_command_help sample_read (sample_parse desc_child_root) "cmd.toml" ["s"]
     = Ok [HP None None].
Proof. repeat split; reflexivity. Qed.

Lemma get_command_toml_app (rd : string -> result string IoError_t)
    (fs : string -> result Table DeError_t) (path : string)
    (l1 l2 : list string) (t : Table) :
  get_command_toml rd fs path l1 = Ok t ->
  get_command_toml rd fs path (l1 ++ l2) = walk l2 t false "".
Proof.
  unfold get_command_toml, toml_to_map, bind_err.
  destruct (rd path) as [s|io]; [|discriminate].
  destruct (fs s) as [root|d]; [|discriminate].
  intros H. exact (walk_app l1 root t "" H l2).
Qed.

(** C7 (amended). When the walk reaches a node (a table, so with distinct
    keys) whose [command] is a string [c], [get_command] returns [c] and
    [get_command_help] succeeds, listing a pair for every child table whose
    key is not "desc" and no pair named "desc"; a child table keyed "desc"
    is still reached by the walk of the path extended with "desc". *)
Theorem command_and_subtree_both_succeed (rd : string -> result string IoError_t)
    (fs : string -> result Table DeError_t) (path : string)
    (command : list string) (node : Table) (c : string) :
  get_command_toml rd fs path command = Ok node ->
  NoDup (map fst node) ->
  get node "command" = Some (VString c) ->
  get_command rd fs path command = Ok c
  /\ (exists hs, get_command_help rd fs path command = Ok hs
       /\ (forall k sub, In (k, VTable sub) node -> k <> "desc" ->
            In (HP (Some k) (and_then (get sub "desc") as_str)) hs)
       /\ (forall d, ~ In (HP (Some "desc") d) hs))
  /\ (forall sub, get node "desc" = Some (VTable sub) ->
        get_command_toml rd fs path (command ++ ["desc"]) = Ok sub).
Proof.
  intros H Hnd Hc. split; [|split].
  - unfold get_command. rewrite H. simpl. now rewrite Hc.
  - eexists; split; [exact (get_command_help_ok rd fs path command node H)|].
    split.
    2:{ intros d [Hb|Hin]; [discriminate Hb|].
        apply in_map_iff in Hin. destruct Hin as [[k v] [Hp Hin]].
        apply filter_In in Hin. destruct Hin as [_ He].
        unfold child_pair in Hp; simpl in Hp. inversion Hp; subst k.
        discriminate He. }
    intros k sub Hin Hk. right.
    change (HP (Some k) (and_then (get sub "desc") as_str)) with (child_pair (k, VTable sub)).
    apply in_map, filter_In. split; [exact Hin|].
    destruct (help_eligible (k, VTable sub)) eqn:He; [reflexivity|].
    apply help_eligible_false in He. destruct He as [Hk'|Hk']; subst k; [congruence|].
    rewrite (get_in_nodup node "command" (VTable sub) Hnd Hin) in Hc. discriminate.
  - intros sub Hd. rewrite (get_command_toml_app rd fs path command ["desc"] node H).
    simpl. now rewrite Hd.
Qed.

(** Witness of the amended C7: [s] of the sample configuration below has
    the command "build" and the child [t]. *)
Definition command_subtree_root : Table :=
  [("s", VTable [("command", VString "build");
                 ("t", VTable [("command", VString "test"); ("desc", VString "t desc")])])].

Lemma command_and_subtree_both_succeed_witness :
  get_command sample_read (sample_parse command_subtree_root) "cmd.toml" ["s"] = Ok "build"
  /\ get_command_help sample_read (sample_parse command_subtree_root) "cmd.toml" ["s"]
     = Ok [HP None None; HP (Some "t") (Some "t desc")]
  /\ get_command sample_read (sample_parse desc_child_root) "cmd.toml" ["s"] = Ok "run"
  /\ get_command_toml sample_read (sample_parse desc_child_root) "cmd.toml" (["s"] ++ ["desc"])
     = Ok [("command", VString "sub")].
Proof.
  assert (Hnd : NoDup (map fst [("command", VString "build");
     ("t", VTable [("command", VString "test"); ("desc", VString "t desc")])])).
  { repeat constructor; simpl; intuition discriminate. }
  assert (Hnd' : NoDup (map fst [("command", VString "run");
     ("desc", VTable [("command", VString "sub")])])).
  { repeat constructor; simpl; intuition discriminate. }
  destruct (command_and_subtree_both_succeed sample_read (sample_parse command_subtree_root)
              "cmd.toml" ["s"] _ "build" eq_refl Hnd eq_refl) as [Hg [[hs [Hh _]] _]].
  destruct (command_and_subtree_both_succeed sample_read (sample_parse desc_child_root)
              "cmd.toml" ["s"] _ "run" eq_refl Hnd' eq_refl) as [Hg' [_ Hdesc]].
  split; [exact Hg|]. split; [rewrite Hh; vm_compute in Hh; now injection Hh as <-|].
  split; [exact Hg'|]. now apply Hdesc.
Defined.

(** The option loop of [main] from any state. *)
Lemma option_loop_gen (opts : list string) (a : Action) (p : bool) :
    ((forall o, In o opts -> is_help_flag o || is_passthrough_flag o = true) ->
       option_loop opts a p
       = Ok (if existsb is_help_flag opts then Help else a,
             p || existsb is_passthrough_flag opts))
    /\ (forall f, option_loop opts a p = Err f ->
          exists pre post, opts = (pre ++ f :: post)%list
            /\ (forall o, In o pre -> is_help_flag o || is_passthrough_flag o = true)
            /\ is_help_flag f || is_passthrough_flag f = false)
    /\ (forall r, option_loop opts a p = Ok r ->
          forall o, In o opts -> is_help_flag o || is_passthrough_flag o = true).
Proof.
  split; [|split].
  - revert a p; induction opts as [|o opts IH]; intros a p Hall; simpl.
    + now rewrite orb_false_r.
    + fold (is_help_flag o) (is_passthrough_flag o).
      assert (Ho := Hall o (or_introl eq_refl)).
      assert (Hr : forall x, In x opts -> is_help_flag x || is_passthrough_flag x = true)
        by (intros x Hx; apply Hall; now right).
      destruct (is_help_flag o) eqn:Hh; [|destruct (is_passthrough_flag o) eqn:Hp].
      * rewrite (IH Help p Hr).
        assert (Hnp : is_passthrough_flag o = false).
        { revert Hh; unfold is_help_flag, is_passthrough_flag.
          destruct (String.eqb_spec o "--help") as [->|];
            [reflexivity|destruct (String.eqb_spec o "-h") as [->|]; [reflexivity|discriminate]]. }
        rewrite Hnp. destruct (existsb is_help_flag opts); reflexivity.
      * rewrite (IH a true Hr). now rewrite orb_true_r.
      * discriminate Ho.
  - revert a p; induction opts as [|o opts IH]; intros a p f Hf; simpl in Hf; [discriminate|].
    fold (is_help_flag o) (is_passthrough_flag o) in Hf.
    destruct (is_help_flag o) eqn:Hh; [|destruct (is_passthrough_flag o) eqn:Hp].
    + destruct (IH _ _ f Hf) as [pre [post [-> [Hpre Hf']]]].
      exists (o :: pre), post. split; [reflexivity|]. split; [|exact Hf'].
      intros x [<-|Hx]; [now rewrite Hh|now apply Hpre].
    + destruct (IH _ _ f Hf) as [pre [post [-> [Hpre Hf']]]].
      exists (o :: pre), post. split; [reflexivity|]. split; [|exact Hf'].
      intros x [<-|Hx]; [now rewrite Hh, Hp|now apply Hpre].
    + inversion Hf; subst. exists [], opts. split; [reflexivity|].
      split; [intros x []|]. now rewrite Hh, Hp.
  - revert a p; induction opts as [|o opts IH]; intros a p r Hr x Hx; simpl in Hr;
      [destruct Hx|].
    fold (is_help_flag o) (is_passthrough_flag o) in Hr.
    destruct (is_help_flag o) eqn:Hh; [|destruct (is_passthrough_flag o) eqn:Hp];
      [| |discriminate Hr];
      (destruct Hx as [<-|Hx]; [rewrite Hh; rewrite ?Hp; reflexivity|exact (IH _ _ r Hr x Hx)]).
Qed.

(** [parse_options] is the option loop with the unknown flag forgotten. *)
Lemma parse_options_option_loop (opts : list string) (a : Action) (p : bool) :
  parse_options opts a p
  = match option_loop opts a p with Ok r => Some r | Err _ => None end.
Proof.
  revert a p; induction opts as [|o opts IH]; intros a p; simpl; [reflexivity|].
  destruct (String.eqb o "--help" || String.eqb o "-h"); [apply IH|].
  destruct (String.eqb o "--passthrough" || String.eqb o "-p"); [apply IH|reflexivity].
Qed.

(** ** C8: the empty token path in the command-line layer *)

(** C8 (counterexample). [srun --help] reaches [help_runner] with no token,
    so [get_command_help] is called with the empty token path. *)
Lemma empty_token_path_counterexample :
  main_dispatch (Some "command.toml") ["--help"] = HelpRunner "command.toml" [].
Proof. reflexivity. Qed.

Lemma main_program_unfold (rd : string -> result string IoError_t)
    (fs : string -> result Table DeError_t) spawn xdg shell_env (args : list string) :
  main_program rd fs spawn xdg shell_env args
  = match option_loop (filter starts_with_dash args) Exec false with
    | Err option =>
        Exited {| stdout := ""; stderr := "Unknown flag: " ++ option ++ nl; exit_code := 1 |}
    | Ok (action, passthrough) =>
        let command := filter (fun x => negb (starts_with_dash x)) args in
        if (match command with [] => true | _ => false end)
           && negb (action_is_help action) then
          Exited {| stdout := ""; stderr := "Error: No command provided" ++ nl; exit_code := 1 |}
        else
          match xdg with
          | Err d => Exited {| stdout := ""; stderr := "Error: " ++ d ++ nl; exit_code := 1 |}
          | Ok None =>
              Exited {| stdout := "";
                        stderr := "Error: command.toml does not exist in config directory" ++ nl;
                        exit_code := 1 |}
          | Ok (Some path) =>
              match action with
              | Exec => command_runner rd fs spawn shell_env path command passthrough
              | Help => help_runner rd fs path command
              end
          end
    end.
Proof. unfold main_program. now rewrite partition_as_filter. Qed.

Lemma main_dispatch_flags_only (config : option string) (args : list string) :
  (forall a, In a args -> starts_with_dash a = true) ->
  (forall a, In a args -> is_help_flag a || is_passthrough_flag a = true) ->
  main_dispatch config args
  = if existsb is_help_flag args then
      match config with Some path => HelpRunner path [] | None => Exit 1 end
    else Exit 1.
Proof.
  intros Hd Hk. unfold main_dispatch. rewrite partition_as_filter.
  assert (Hf : filter starts_with_dash args = args)
    by (apply forallb_filter_id, forallb_forall; exact Hd).
  assert (Hn : filter (fun x => negb (starts_with_dash x)) args = []).
  { apply filter_nil_iff. intros x Hx. now rewrite (Hd x Hx). }
  rewrite Hf, Hn, parse_options_option_loop, (proj1 (option_loop_gen args Exec false) Hk).
  destruct (existsb is_help_flag args); simpl; [|reflexivity].
  destruct config; reflexivity.
Qed.

(** C8 (amended). [main] calls [command_runner] (hence [get_command]) only
    with a non-empty token path. An invocation without tokens whose flags
    are all known is rejected with status 1 and "Error: No command
    provided" unless some flag is "--help" or "-h"; with such a flag (help
    mode) [main] calls [help_runner] with the empty token path, and
    [get_command_help] then lists the root table. *)
Theorem empty_token_path_exec_only :
  (forall config args path command passthrough,
     main_dispatch config args = CommandRunner path command passthrough ->
     command <> [])
  /\ (forall config args,
        (forall a, In a args -> starts_with_dash a = true) ->
        (forall a, In a args -> is_help_flag a || is_passthrough_flag a = true) ->
        existsb is_help_flag args = false ->
        main_dispatch config args = Exit 1
        /\ forall rd fs spawn xdg shell_env,
             main_program rd fs spawn xdg shell_env args
             = Exited {| stdout := ""; stderr := "Error: No command provided" ++ nl;
                         exit_code := 1 |})
  /\ (forall path args,
        (forall a, In a args -> starts_with_dash a = true) ->
        (forall a, In a args -> is_help_flag a || is_passthrough_flag a = true) ->
        existsb is_help_flag args = true ->
        main_dispatch (Some path) args = HelpRunner path [])
  /\ (forall rd fs path s root,
        rd path = Ok s -> fs s = Ok root ->
        get_command_help rd fs path []
        = Ok (HP None (and_then (get root "desc") as_str)
              :: map child_pair (filter help_eligible root))).
Proof.
  split; [|split; [|split]].
  - intros config args path command passthrough.
    unfold main_dispatch. destruct (partition starts_with_dash args) as [options cmd].
    destruct (parse_options options Exec false) as [[action pt]|]; [|discriminate].
    destruct cmd as [|tok cmd]; destruct action; simpl;
      try discriminate; destruct config; try discriminate;
      intros Heq; inversion Heq; discriminate.
  - intros config args Hd Hk Hh. split.
    + rewrite (main_dispatch_flags_only config args Hd Hk), Hh. reflexivity.
    + intros rd fs spawn xdg shell_env. rewrite main_program_unfold.
      assert (Hf : filter starts_with_dash args = args)
        by (apply forallb_filter_id, forallb_forall; exact Hd).
      assert (Hn : filter (fun x => negb (starts_with_dash x)) args = []).
      { apply filter_nil_iff. intros x Hx. now rewrite (Hd x Hx). }
      rewrite Hf, (proj1 (option_loop_gen args Exec false) Hk), Hh, Hn. reflexivity.
  - intros path args Hd Hk Hh.
    now rewrite (main_dispatch_flags_only (Some path) args Hd Hk), Hh.
  - intros rd fs path s root Hr Hf. apply get_command_help_ok.
    now rewrite (get_command_toml_ok rd fs path s root [] Hr Hf).
Qed.

(** Witness of the amended C8: [srun -h], [srun -p --help] and [srun -p]. *)
Lemma empty_token_path_exec_only_witness :
  main_dispatch (Some "command.toml") ["-h"] = HelpRunner "command.toml" []
  /\ main_dispatch (Some "command.toml") ["-p"; "--help"] = HelpRunner "command.toml" []
  /\ main_dispatch (Some "command.toml") ["-p"] = Exit 1.
Proof.
  destruct empty_token_path_exec_only as [_ [Hexec [Hhelp _]]].
  split; [|split].
  - apply Hhelp; [intros a [<-|[]]; reflexivity|intros a [<-|[]]; reflexivity|reflexivity].
  - apply Hhelp; [intros a [<-|[<-|[]]]; reflexivity|intros a [<-|[<-|[]]]; reflexivity|reflexivity].
  - apply (Hexec (Some "command.toml") ["-p"]);
      [intros a [<-|[]]; reflexivity|intros a [<-|[]]; reflexivity|reflexivity].
Defined.

(** ** C9: the config loader checks syntax only *)

(** C9. [toml_to_map] returns the parser's table whenever the parser
    succeeds, and otherwise fails only with [TomlDeError] of the parser's
    error: it never reports a missing or wrongly typed field, nor a command
    not found. *)
Theorem toml_to_map_syntax_only (fs : string -> result Table DeError_t)
    (toml_str : string) :
  match toml_to_map fs toml_str with
  | Ok t => fs toml_str = Ok t
  | Err e => exists d, e = TomlDeError d /\ fs toml_str = Err d
  end.
Proof.
  unfold toml_to_map, bind_err. destruct (fs toml_str) as [t|d]; [reflexivity|].
  now exists d.
Qed.

(** ** Further properties of the resolver and of main.rs *)

(** The concatenation of a list of strings. *)
Definition cat (l : list string) : string := fold_right String.append "" l.

Lemma string_app_nil_r (s : string) : (s ++ "") = s.
Proof. induction s as [|c s IH]; simpl; [reflexivity | now rewrite IH]. Qed.

(** Normalisation of string concatenations to the right. *)
Ltac str_norm :=
  repeat progress (simpl; rewrite ?string_app_assoc, ?string_app_nil_r).

Lemma fold_left_append_cat {A : Type} (f : A -> string) (l : list A) (out : string) :
  fold_left (fun o x => o ++ f x) l out = out ++ cat (map f l).
Proof.
  revert out; induction l as [|x l IH]; intros out; simpl.
  - now rewrite string_app_nil_r.
  - rewrite IH. now rewrite string_app_assoc.
Qed.

(** The text of one child line of the help output. *)
Definition child_line (kv : string * Value) : string :=
  "    " ++ fst kv
  ++ match and_then (value_get (snd kv) "desc") as_str with
     | Some d => ": " ++ d
     | None => ""
     end
  ++ nl.

Definition help_line_text (hp : HelpPair) : string :=
  match hp with
  | HP (Some cmd) (Some desc) => "    " ++ cmd ++ ": " ++ desc ++ nl
  | HP (Some cmd) None => "    " ++ cmd ++ nl
  | HP None _ => ""
  end.

Lemma help_line_fold (hs : list HelpPair) (out : string) :
  fold_left help_line hs out = out ++ cat (map help_line_text hs).
Proof.
  revert out; induction hs as [|[[c|] [d|]] hs IH]; intros out; simpl;
    rewrite ?IH; str_norm; reflexivity.
Qed.

Lemma help_line_text_child (kv : string * Value) :
  help_line_text (child_pair kv) = child_line kv.
Proof.
  destruct kv as [k v]; unfold child_pair, child_line; simpl.
  destruct (and_then (value_get v "desc") as_str); str_norm; reflexivity.
Qed.

(** X: the text [help_runner] prints for a resolved node: the usage line
    (with " [command]" when the node lists children), the node's own string
    [desc] on a line of its own (followed by a blank line when children
    follow), then a "commands:" block with one line per child, "name: desc"
    or the bare name. Nothing goes to stderr and the status is 0. *)
Theorem help_runner_output (rd : string -> result string IoError_t)
    (fs : string -> result Table DeError_t) (path : string)
    (command : list string) (node : Table) :
  get_command_toml rd fs path command = Ok node ->
  help_runner rd fs path command
  = Exited {| stdout :=
         "usage: srun" ++ cat (map (fun c => " " ++ c) command)
         ++ match filter help_eligible node with [] => "" | _ => " [command]" end
         ++ nl
         ++ match and_then (get node "desc") as_str with
            | Some d => d ++ nl ++ match filter help_eligible node with [] => "" | _ => nl end
            | None => ""
            end
         ++ match filter help_eligible node with
            | [] => ""
            | children => "commands:" ++ nl ++ cat (map child_line children)
            end;
       stderr := ""; exit_code := 0 |}.
Proof.
  intros H. unfold help_runner.
  rewrite (get_command_help_ok rd fs path command node H).
  unfold help_text. simpl find.
  rewrite (fold_left_append_cat (fun c => " " ++ c)).
  destruct (filter help_eligible node) as [|kv children] eqn:Hc.
  - simpl. destruct (and_then (get node "desc") as_str) as [d|]; str_norm; reflexivity.
  - simpl length. simpl Nat.ltb. cbv iota.
    rewrite help_line_fold, map_cons, map_map.
    rewrite (map_ext _ _ help_line_text_child).
    destruct (and_then (get node "desc") as_str) as [d|]; str_norm; reflexivity.
Qed.

(** Witness: [srun s --help] on the integration tests' configuration prints
    the text the integration test [test_help_subcommand] expects. *)
Lemma help_runner_output_witness :
  help_runner sample_read (sample_parse basic_root) "cmd.toml" ["s"]
  = Exited {| stdout := "usage: srun s [command]" ++ nl ++ "s desc" ++ nl ++ nl
                        ++ "commands:" ++ nl ++ "    c1: c1 desc" ++ nl ++ "    c2" ++ nl;
              stderr := ""; exit_code := 0 |}.
Proof.
  rewrite (help_runner_output sample_read (sample_parse basic_root) "cmd.toml" ["s"]
             _ eq_refl).
  vm_compute. reflexivity.
Defined.

(** X: a resolution error ends both runners the same way: nothing on
    stdout, "Error: " and the error's message on stderr, status 1, and no
    process spawned. *)
Theorem runners_error_exit (rd : string -> result string IoError_t)
    (fs : string -> result Table DeError_t) (path : string)
    (command : list string) (e : CommandParseError) :
  get_command_toml rd fs path command = Err e ->
  (forall spawn shell_env passthrough,
     command_runner rd fs spawn shell_env path command passthrough
     = Exited {| stdout := ""; stderr := "Error: " ++ display_error e ++ nl; exit_code := 1 |})
  /\ help_runner rd fs path command
     = Exited {| stdout := ""; stderr := "Error: " ++ display_error e ++ nl; exit_code := 1 |}.
Proof.
  intros H. destruct (get_command_help_same_walk_errors rd fs path command e H) as [Hc Hh].
  split.
  - intros spawn shell_env passthrough. unfold command_runner. now rewrite Hc.
  - unfold help_runner. now rewrite Hh.
Qed.

(** Witness: [srun s dne] on the integration tests' configuration. *)
Lemma runners_error_exit_witness :
  help_runner sample_read (sample_parse basic_root) "cmd.toml" ["s"; "dne"]
  = Exited {| stdout := ""; stderr := "Error: Command `dne` not found" ++ nl; exit_code := 1 |}.
Proof.
  exact (proj2 (runners_error_exit sample_read (sample_parse basic_root) "cmd.toml"
                  ["s"; "dne"] (CommandNotFoundError "dne") eq_refl)).
Defined.

(** X: in exec mode a token path whose walk enters not-found mode prints
    "Error: Command `<suffix>` not found" (the suffix between backticks, not
    the single quotes the integration tests expect) and exits with 1. *)
Theorem command_runner_not_found_message (rd : string -> result string IoError_t)
    (fs : string -> result Table DeError_t) spawn shell_env passthrough
    (path s : string) (root node : Table) (pre rest : list string) (t : string) :
  rd path = Ok s -> fs s = Ok root ->
  walk pre root false "" = Ok node -> get node t = None ->
  command_runner rd fs spawn shell_env path (pre ++ t :: rest) passthrough
  = Exited {| stdout := "";
              stderr := "Error: Command `" ++ String.concat " " (t :: rest) ++ "` not found" ++ nl;
              exit_code := 1 |}.
Proof.
  intros Hr Hf Hw Hg. unfold command_runner.
  rewrite (get_command_not_found_suffix rd fs path s root node pre rest t Hr Hf Hw Hg).
  unfold disp_and_die, display_error. now rewrite !string_app_assoc.
Qed.

(** Witness: [srun dne c1], the integration test [test_exec_subcommand_dne]. *)
Lemma command_runner_not_found_message_witness :
  command_runner sample_read (sample_parse basic_root) (fun _ _ => Ok {| status_code := Some 0%Z; status_signal := None |})
    None "cmd.toml" ([] ++ "dne" :: ["c1"]) false
  = Exited {| stdout := ""; stderr := "Error: Command `dne c1` not found" ++ nl; exit_code := 1 |}.
Proof.
  exact (command_runner_not_found_message sample_read (sample_parse basic_root) _ None false
           "cmd.toml" "" basic_root basic_root [] ["c1"] "dne" eq_refl eq_refl eq_refl eq_refl).
Defined.

(** X: with [--passthrough] a resolved command is printed on stdout with a
    newline and the program exits with 125, whatever the shell: no process
    is spawned. *)
Theorem command_runner_passthrough (rd : string -> result string IoError_t)
    (fs : string -> result Table DeError_t) (path : string)
    (command : list string) (c : string) :
  get_command rd fs path command = Ok c ->
  forall spawn shell_env,
    command_runner rd fs spawn shell_env path command true
    = Exited {| stdout := c ++ nl; stderr := ""; exit_code := 125 |}.
Proof. intros H spawn shell_env. unfold command_runner. now rewrite H. Qed.

(** Witness: [srun -p s c1]. *)
Lemma command_runner_passthrough_witness :
  command_runner sample_read (sample_parse basic_root)
    (fun _ _ => Err {| io_message := "no shell" |}) (Some "/bin/bash") "cmd.toml" ["s"; "c1"] true
  = Exited {| stdout := "echo c1 ran" ++ nl; stderr := ""; exit_code := 125 |}.
Proof.
  exact (command_runner_passthrough sample_read (sample_parse basic_root) "cmd.toml"
           ["s"; "c1"] "echo c1 ran" eq_refl _ _).
Defined.

(** [ends_with s suffix] holds exactly when [s] is some string followed by
    [suffix]. *)
Lemma ends_with_spec (s suffix : string) :
  ends_with s suffix = true <-> exists p, s = p ++ suffix.
Proof.
  assert (Hu : forall s, ends_with s suffix
                = if String.eqb s suffix then true
                  else match s with String _ s' => ends_with s' suffix | EmptyString => false end)
    by (intros [|? ?]; reflexivity).
  induction s as [|c s IH]; rewrite Hu.
  - destruct (String.eqb_spec "" suffix) as [<-|Hne].
    + split; [intros _; now exists ""|reflexivity].
    + split; [discriminate|]. intros [[|x p] Hp]; simpl in Hp; [congruence|discriminate].
  - destruct (String.eqb_spec (String c s) suffix) as [<-|Hne].
    + split; [intros _; now exists ""|reflexivity].
    + rewrite IH. split.
      * intros [p ->]. now exists (String c p).
      * intros [[|x p] Hp]; simpl in Hp; [congruence|]. inversion Hp; subst. now exists p.
Qed.

(** X: the shell receives "-i" first exactly when its path ends in "bash",
    "zsh" or "fish", then "-c" and the resolved command unchanged; [SHELL]
    unset means "sh" and no "-i". *)
Theorem shell_args_interactive (shell exec_command : string) :
  ((exists p, shell = p ++ "bash" \/ shell = p ++ "zsh" \/ shell = p ++ "fish") ->
     shell_args shell exec_command = ["-i"; "-c"; exec_command])
  /\ ((forall p, shell <> p ++ "bash" /\ shell <> p ++ "zsh" /\ shell <> p ++ "fish") ->
        shell_args shell exec_command = ["-c"; exec_command])
  /\ shell_args "sh" exec_command = ["-c"; exec_command].
Proof.
  unfold shell_args. split; [|split].
  - intros [p Hp].
    replace (ends_with shell "bash" || ends_with shell "zsh" || ends_with shell "fish")
      with true; [reflexivity|].
    destruct Hp as [Hp|[Hp|Hp]];
      [ assert (ends_with shell "bash" = true) by (apply ends_with_spec; now exists p)
      | assert (ends_with shell "zsh" = true) by (apply ends_with_spec; now exists p)
      | assert (ends_with shell "fish" = true) by (apply ends_with_spec; now exists p) ];
      rewrite H; rewrite ?orb_true_r; reflexivity.
  - intros Hn.
    destruct (ends_with shell "bash") eqn:Hb;
      [apply ends_with_spec in Hb; destruct Hb as [p Hp]; exfalso; exact (proj1 (Hn p) Hp)|].
    destruct (ends_with shell "zsh") eqn:Hz;
      [apply ends_with_spec in Hz; destruct Hz as [p Hp]; exfalso; exact (proj1 (proj2 (Hn p)) Hp)|].
    destruct (ends_with shell "fish") eqn:Hf;
      [apply ends_with_spec in Hf; destruct Hf as [p Hp]; exfalso; exact (proj2 (proj2 (Hn p)) Hp)|].
    reflexivity.
  - reflexivity.
Qed.

(** X: with a resolved command and no [--passthrough], the exit status of
    [srun] is the shell's: its exit code when it has one, 128 plus the signal
    number when it was killed; a status with neither is a panic. The shell
    is [SHELL] or "sh", and a failure to spawn or wait ends with "Error: "
    and the I/O message, status 1. *)
Theorem command_runner_exit_status (rd : string -> result string IoError_t)
    (fs : string -> result Table DeError_t)
    (spawn : string -> list string -> result ExitStatus IoError_t)
    (shell_env : option string) (path : string) (command : list string) (c : string) :
  get_command rd fs path command = Ok c ->
  let shell := match shell_env with Some s => s | None => "sh" end in
  (forall st k, spawn shell (shell_args shell c) = Ok st -> status_code st = Some k ->
     command_runner rd fs spawn shell_env path command false
     = Exited {| stdout := ""; stderr := ""; exit_code := k |})
  /\ (forall st sg, spawn shell (shell_args shell c) = Ok st -> status_code st = None ->
        status_signal st = Some sg ->
        command_runner rd fs spawn shell_env path command false
        = Exited {| stdout := ""; stderr := ""; exit_code := 128 + sg |})
  /\ (forall st, spawn shell (shell_args shell c) = Ok st -> status_code st = None ->
        status_signal st = None ->
        exists msg, command_runner rd fs spawn shell_env path command false = Panicked msg)
  /\ (forall err, spawn shell (shell_args shell c) = Err err ->
        command_runner rd fs spawn shell_env path command false
        = Exited {| stdout := ""; stderr := "Error: " ++ io_message err ++ nl; exit_code := 1 |}).
Proof.
  intros H shell. unfold command_runner. rewrite H. fold shell.
  split; [|split; [|split]].
  - intros st k Hs Hk. now rewrite Hs, Hk.
  - intros st sg Hs Hk Hg. now rewrite Hs, Hk, Hg.
  - intros st Hs Hk Hg. rewrite Hs, Hk, Hg. now eexists.
  - intros err Hs. now rewrite Hs.
Qed.

(** A shell that exits with 42 after [-c "exit 42"] and is killed by signal
    15 after [-c "kill -s TERM $$"], as in the integration tests. *)
Definition sample_spawn (shell : string) (args : list string) : result ExitStatus IoError_t :=
  if ends_with (String.concat " " args) "exit 42"
  then Ok {| status_code := Some 42%Z; status_signal := None |}
  else Ok {| status_code := None; status_signal := Some 15%Z |}.

Definition exit_root : Table :=
  [("c", VTable [("command", VString "exit 42")]);
   ("k", VTable [("command", VString "kill -s TERM $$")])].

(** Witness: [srun c] exits with 42 and [srun k] with 143 under "sh". *)
Lemma command_runner_exit_status_witness :
  command_runner sample_read (sample_parse exit_root) sample_spawn None "cmd.toml" ["c"] false
  = Exited {| stdout := ""; stderr := ""; exit_code := 42 |}
  /\ command_runner sample_read (sample_parse exit_root) sample_spawn None "cmd.toml" ["k"] false
  = Exited {| stdout := ""; stderr := ""; exit_code := 143 |}.
Proof.
  split.
  - exact (proj1 (command_runner_exit_status sample_read (sample_parse exit_root) sample_spawn
             None "cmd.toml" ["c"] "exit 42" eq_refl) _ 42%Z eq_refl eq_refl).
  - exact (proj1 (proj2 (command_runner_exit_status sample_read (sample_parse exit_root)
             sample_spawn None "cmd.toml" ["k"] "kill -s TERM $$" eq_refl)) _ 15%Z
             eq_refl eq_refl eq_refl).
Defined.

(** Witness of [shell_args_interactive]: "/bin/bash" gets "-i",
    "/bin/dash" does not. *)
Lemma shell_args_interactive_witness :
  shell_args "/bin/bash" "ls" = ["-i"; "-c"; "ls"]
  /\ shell_args "/bin/dash" "ls" = ["-c"; "ls"].
Proof.
  split.
  - apply (proj1 (shell_args_interactive "/bin/bash" "ls")).
    exists "/bin/"; now left.
  - apply (proj1 (proj2 (shell_args_interactive "/bin/dash" "ls"))).
    intros p; repeat split; intros Hp;
      [ assert (Hb : ends_with "/bin/dash" "bash" = true) by (apply ends_with_spec; now exists p)
      | assert (Hb : ends_with "/bin/dash" "zsh" = true) by (apply ends_with_spec; now exists p)
      | assert (Hb : ends_with "/bin/dash" "fish" = true) by (apply ends_with_spec; now exists p) ];
      discriminate Hb.
Defined.


(** X: the option loop of [main] accepts a list of flags exactly when each is
    one of "--help", "-h", "--passthrough", "-p", in any order and with
    repetitions; help mode is chosen when some flag is "--help" or "-h", and
    passthrough when some flag is "--passthrough" or "-p". Otherwise it stops
    at the first flag that is none of these, and accepts nothing. *)
Theorem option_loop_flags (options : list string) :
  ((forall o, In o options -> is_help_flag o || is_passthrough_flag o = true) ->
     option_loop options Exec false
     = Ok (if existsb is_help_flag options then Help else Exec,
           existsb is_passthrough_flag options))
  /\ (forall r, option_loop options Exec false = Ok r ->
        forall o, In o options -> is_help_flag o || is_passthrough_flag o = true)
  /\ (forall f, option_loop options Exec false = Err f ->
        exists pre post, options = (pre ++ f :: post)%list
          /\ (forall o, In o pre -> is_help_flag o || is_passthrough_flag o = true)
          /\ is_help_flag f || is_passthrough_flag f = false).
Proof.
  destruct (option_loop_gen options Exec false) as [H1 [H2 H3]].
  split; [exact H1|split; [|exact H2]].
  intros r Hr o Ho. exact (H3 r Hr o Ho).
Qed.

(** Witness: [-p --help -h] and [-p -x --help]. *)
Lemma option_loop_flags_witness :
  option_loop ["-p"; "--help"; "-h"] Exec false = Ok (Help, true)
  /\ option_loop ["-p"; "-x"; "--help"] Exec false = Err "-x".
Proof.
  split.
  - apply (proj1 (option_loop_flags ["-p"; "--help"; "-h"])).
    intros o [<-|[<-|[<-|[]]]]; reflexivity.
  - reflexivity.
Defined.

Lemma option_loop_known_prefix (pre rest : list string) (a : Action) (p : bool) :
  (forall o, In o pre -> is_help_flag o || is_passthrough_flag o = true) ->
  exists a' p', option_loop (pre ++ rest) a p = option_loop rest a' p'.
Proof.
  revert a p; induction pre as [|o pre IH]; intros a p Hall; simpl.
  - now exists a, p.
  - fold (is_help_flag o) (is_passthrough_flag o).
    assert (Ho := Hall o (or_introl eq_refl)).
    destruct (is_help_flag o); [|destruct (is_passthrough_flag o); [|discriminate]];
      apply IH; intros x Hx; apply Hall; now right.
Qed.


(** X: an argument starting with '-' that is not a known flag makes [srun]
    print "Unknown flag: <arg>" on stderr and exit with 1, whatever the
    other arguments, the configuration or a [--help] elsewhere; it is the
    first such argument that is reported. *)
Theorem main_unknown_flag (rd : string -> result string IoError_t)
    (fs : string -> result Table DeError_t) spawn xdg shell_env
    (args pre post : list string) (f : string) :
  filter starts_with_dash args = (pre ++ f :: post)%list ->
  (forall o, In o pre -> is_help_flag o || is_passthrough_flag o = true) ->
  is_help_flag f || is_passthrough_flag f = false ->
  main_program rd fs spawn xdg shell_env args
  = Exited {| stdout := ""; stderr := "Unknown flag: " ++ f ++ nl; exit_code := 1 |}.
Proof.
  intros Hfl Hpre Hf. rewrite main_program_unfold, Hfl.
  destruct (option_loop_known_prefix pre (f :: post) Exec false Hpre) as [a [p ->]].
  simpl. unfold is_help_flag, is_passthrough_flag in Hf.
  destruct (String.eqb f "--help"), (String.eqb f "-h"),
           (String.eqb f "--passthrough"), (String.eqb f "-p"); try discriminate Hf.
  reflexivity.
Qed.

(** Witness: [srun --help s -x c1]. *)
Lemma main_unknown_flag_witness :
  main_program sample_read (sample_parse basic_root) sample_spawn (Ok (Some "cmd.toml")) None
    ["--help"; "s"; "-x"; "c1"]
  = Exited {| stdout := ""; stderr := "Unknown flag: -x" ++ nl; exit_code := 1 |}.
Proof.
  apply (main_unknown_flag _ _ _ _ _ _ ["--help"] [] "-x"); [reflexivity| |reflexivity].
  intros o [<-|[]]; reflexivity.
Defined.

(** X: [srun] with only known flags, none of them "--help" or "-h", and no
    token prints "Error: No command provided" and exits with 1 before the
    configuration is looked up. *)
Theorem main_no_command (rd : string -> result string IoError_t)
    (fs : string -> result Table DeError_t) spawn xdg shell_env (args : list string) :
  (forall a, In a args -> starts_with_dash a = true) ->
  (forall a, In a args -> is_help_flag a || is_passthrough_flag a = true) ->
  existsb is_help_flag args = false ->
  main_program rd fs spawn xdg shell_env args
  = Exited {| stdout := ""; stderr := "Error: No command provided" ++ nl; exit_code := 1 |}.
Proof.
  intros Hd Hk Hh. rewrite main_program_unfold.
  assert (Hf : filter starts_with_dash args = args)
    by (apply forallb_filter_id, forallb_forall; exact Hd).
  assert (Hn : filter (fun x => negb (starts_with_dash x)) args = []).
  { apply filter_nil_iff. intros x Hx. now rewrite (Hd x Hx). }
  rewrite Hf, (proj1 (option_loop_gen args Exec false) Hk), Hh, Hn. reflexivity.
Qed.

(** Witness: [srun -p] and [srun]. *)
Lemma main_no_command_witness :
  main_program sample_read (sample_parse basic_root) sample_spawn (Ok None) None ["-p"]
  = Exited {| stdout := ""; stderr := "Error: No command provided" ++ nl; exit_code := 1 |}
  /\ main_program sample_read (sample_parse basic_root) sample_spawn (Ok None) None []
  = Exited {| stdout := ""; stderr := "Error: No command provided" ++ nl; exit_code := 1 |}.
Proof.
  split; apply main_no_command; try reflexivity;
    intros a Ha; simpl in Ha; repeat (destruct Ha as [<-|Ha]; [reflexivity|]); destruct Ha.
Defined.

(** X: where the flags stand among the tokens does not matter: two argument
    lists with the same flags in the same order and the same tokens in the
    same order lead [srun] to the same outcome ([s c1 --help] is
    [--help s c1]). *)
Theorem main_flag_position (rd : string -> result string IoError_t)
    (fs : string -> result Table DeError_t) spawn xdg shell_env (args1 args2 : list string) :
  filter starts_with_dash args1 = filter starts_with_dash args2 ->
  filter (fun x => negb (starts_with_dash x)) args1
  = filter (fun x => negb (starts_with_dash x)) args2 ->
  main_program rd fs spawn xdg shell_env args1 = main_program rd fs spawn xdg shell_env args2.
Proof. intros H1 H2. rewrite !main_program_unfold, H1, H2. reflexivity. Qed.

(** Witness: [srun s c1 --help] and [srun --help s c1]. *)
Lemma main_flag_position_witness :
  main_program sample_read (sample_parse basic_root) sample_spawn (Ok (Some "cmd.toml")) None
    ["s"; "c1"; "--help"]
  = main_program sample_read (sample_parse basic_root) sample_spawn (Ok (Some "cmd.toml")) None
    ["--help"; "s"; "c1"].
Proof. apply main_flag_position; reflexivity. Defined.

(** X: with known flags only and a configuration file found, [srun] runs
    [help_runner] on the tokens when some flag is "--help" or "-h", and
    otherwise, given at least one token, [command_runner] on the tokens,
    with passthrough exactly when some flag is "--passthrough" or "-p". *)
Theorem main_runs_runner (rd : string -> result string IoError_t)
    (fs : string -> result Table DeError_t) spawn shell_env (path : string)
    (args : list string) :
  (forall o, In o (filter starts_with_dash args) -> is_help_flag o || is_passthrough_flag o = true) ->
  (existsb is_help_flag (filter starts_with_dash args) = true ->
     main_program rd fs spawn (Ok (Some path)) shell_env args
     = help_runner rd fs path (filter (fun x => negb (starts_with_dash x)) args))
  /\ (existsb is_help_flag (filter starts_with_dash args) = false ->
      filter (fun x => negb (starts_with_dash x)) args <> [] ->
      main_program rd fs spawn (Ok (Some path)) shell_env args
      = command_runner rd fs spawn shell_env path
          (filter (fun x => negb (starts_with_dash x)) args)
          (existsb is_passthrough_flag (filter starts_with_dash args))).
Proof.
  intros Hk. rewrite main_program_unfold, (proj1 (option_loop_gen _ Exec false) Hk). split.
  - intros Hh. rewrite Hh. cbv zeta.
    destruct (filter (fun x => negb (starts_with_dash x)) args); reflexivity.
  - intros Hh Hne. rewrite Hh. cbv zeta.
    destruct (filter (fun x => negb (starts_with_dash x)) args); [congruence|reflexivity].
Qed.

(** Witness: [srun s c1 -p] prints the command and exits with 125. *)
Lemma main_runs_runner_witness :
  main_program sample_read (sample_parse basic_root) sample_spawn (Ok (Some "cmd.toml")) None
    ["s"; "c1"; "-p"]
  = Exited {| stdout := "echo c1 ran" ++ nl; stderr := ""; exit_code := 125 |}.
Proof.
  assert (Hk : forall o, In o (filter starts_with_dash ["s"; "c1"; "-p"]) ->
                 is_help_flag o || is_passthrough_flag o = true)
    by (intros o [<-|[]]; reflexivity).
  rewrite (proj2 (main_runs_runner sample_read (sample_parse basic_root) sample_spawn None
                    "cmd.toml" ["s"; "c1"; "-p"] Hk) eq_refl).
  - reflexivity.
  - discriminate.
Defined.

(** X: resolving [l1 ++ l2] is resolving [l1] and then [l2]: from the table
    [l1] reaches when it matched every token; with the same invalid-content
    error when [l1] hits a non-table; and, when [l1] ran into a missing
    token, with the tokens of [l2] appended to the not-found suffix. *)
Theorem walk_app_compose (l1 l2 : list string) (t : Table) (e : string) :
  walk (l1 ++ l2) t false e
  = match walk l1 t false e with
    | Ok t' => walk l2 t' false e
    | Err (CommandNotFoundError msg) => Err (CommandNotFoundError (fold_left append_token l2 msg))
    | Err err => Err err
    end.
Proof.
  revert t; induction l1 as [|token l1 IH]; intros t; simpl; [reflexivity|].
  destruct (get t token) as [v|]; [destruct v; try reflexivity; apply IH|].
  rewrite !walk_not_found. now rewrite fold_left_app.
Qed.

(** X: [get_command_toml] fails only with the I/O error of reading the
    file, the parser's error, a not-found suffix, or [NotTomlTable k v] for
    one of the tokens [k] whose value [v] is not a table (so its message
    never reads "but got Table"); it never reports a missing key or a value
    that is not a string. *)
Theorem get_command_toml_errors (rd : string -> result string IoError_t)
    (fs : string -> result Table DeError_t) (path : string)
    (command : list string) (e : CommandParseError) :
  get_command_toml rd fs path command = Err e ->
  (exists io, rd path = Err io /\ e = IoError io)
  \/ (exists s d, rd path = Ok s /\ fs s = Err d /\ e = TomlDeError d)
  \/ (exists msg, e = CommandNotFoundError msg)
  \/ (exists k v, e = CommandContentInvalid (NotTomlTable k v) /\ In k command
       /\ value_as_name v <> "Table").
Proof.
  unfold get_command_toml, toml_to_map, bind_err.
  destruct (rd path) as [s|io] eqn:Hr; [|intros H; inversion H; subst; left; now exists io].
  destruct (fs s) as [root|d] eqn:Hf;
    [|intros H; inversion H; subst; right; left; now exists s, d].
  intros H. right; right.
  assert (Hw : forall l tbl nf acc, walk l tbl nf acc = Err e ->
            (exists msg, e = CommandNotFoundError msg)
            \/ (exists k v, e = CommandContentInvalid (NotTomlTable k v) /\ In k l
                 /\ value_as_name v <> "Table")).
  { induction l as [|token l IH]; intros tbl nf acc Hl; simpl in Hl.
    - destruct nf; inversion Hl; left; now eexists.
    - destruct nf; simpl in Hl.
      + destruct (IH _ _ _ Hl) as [Hm|[k [v [He [Hk Hv]]]]]; [now left|].
        right; exists k, v; split; [exact He|split; [now right|exact Hv]].
      + destruct (get tbl token) as [v|] eqn:Hg.
        * destruct v;
            try (inversion Hl; right; exists token; eexists;
                 split; [reflexivity|split; [now left|discriminate]]).
          destruct (IH _ _ _ Hl) as [Hm|[k [v [He [Hk Hv]]]]]; [now left|].
          right; exists k, v; split; [exact He|split; [now right|exact Hv]].
        * destruct (IH _ _ _ Hl) as [Hm|[k [v [He [Hk Hv]]]]]; [now left|].
          right; exists k, v; split; [exact He|split; [now right|exact Hv]]. }
  exact (Hw _ _ _ _ H).
Qed.

(** Witness: [foo qux] on the sample configuration. *)
Lemma get_command_toml_errors_witness :
  exists k v,
    CommandContentInvalid (NotTomlTable "qux" (VString "quux"))
    = CommandContentInvalid (NotTomlTable k v)
    /\ In k ["foo"; "qux"] /\ value_as_name v <> "Table".
Proof.
  destruct (get_command_toml_errors sample_read (sample_parse sample_root) "cmd.toml"
              ["foo"; "qux"] _ eq_refl)
    as [[io [Hio _]]|[[s [d [_ [Hd _]]]]|[[msg Hm]|Hk]]];
    [discriminate Hio|discriminate Hd|discriminate Hm|exact Hk].
Defined.

(** X: the messages [srun] prints for the errors of [get_command], each tied
    to its cause: when the walk reaches a node with no [command] key, the
    message is "Command content invalid - Expected key 'command' but it is
    not present"; when its [command] value [v] is not a string, the message
    names the kind of [v] (never "String"); and when the walk of a prefix
    reaches a node whose entry for the next token [t] is a value [v] that is
    not a table, the message names [t] and the kind of [v] (never "Table"),
    whatever tokens follow. *)
Theorem get_command_error_messages (rd : string -> result string IoError_t)
    (fs : string -> result Table DeError_t) (path s : string) (root : Table) :
  rd path = Ok s -> fs s = Ok root ->
  (forall command node, walk command root false "" = Ok node ->
     get node "command" = None ->
     exists e, get_command rd fs path command = Err e
       /\ display_error e
          = "Command content invalid - Expected key 'command' but it is not present")
  /\ (forall command node v, walk command root false "" = Ok node ->
     get node "command" = Some v -> as_str v = None ->
     exists e, get_command rd fs path command = Err e
       /\ display_error e
          = "Command content invalid - Expected key 'command' to be String but got "
            ++ value_as_name v
       /\ value_as_name v <> "String")
  /\ (forall pre node t v rest, walk pre root false "" = Ok node ->
     get node t = Some v -> (forall sub, v <> VTable sub) ->
     exists e, get_command rd fs path (pre ++ t :: rest) = Err e
       /\ display_error e
          = "Command content invalid - Expected key '" ++ t ++ "' to be Table but got "
            ++ value_as_name v
       /\ value_as_name v <> "Table").
Proof.
  intros Hr Hf.
  assert (Hg : forall command, get_command_toml rd fs path command
                               = walk command root false "").
  { intros command. exact (get_command_toml_ok rd fs path s root command Hr Hf). }
  split; [|split].
  - intros command node Hw Hc. eexists. split.
    + unfold get_command. rewrite Hg, Hw. simpl. now rewrite Hc.
    + reflexivity.
  - intros command node v Hw Hc Hs. eexists. split; [|split].
    + unfold get_command. rewrite Hg, Hw. simpl. now rewrite Hc, Hs.
    + reflexivity.
    + destruct v; simpl in *; discriminate.
  - intros pre node t v rest Hw Ht Hv. eexists. split; [|split].
    + unfold get_command. rewrite Hg, (walk_app pre root node "" Hw (t :: rest)).
      simpl. rewrite Ht. destruct v as [| | | | |a|sub]; try reflexivity. exfalso. exact (Hv sub eq_refl).
    + reflexivity.
    + destruct v as [| | | | |a|sub]; simpl; try discriminate. exfalso. exact (Hv sub eq_refl).
Qed.

(** Witness: on the sample configuration, [srun baz] (no [command]),
    [srun foo] (a table as [command]) and [srun foo qux] ([qux] a string). *)
Lemma get_command_error_messages_witness :
  (exists e, get_command sample_read (sample_parse sample_root) "cmd.toml" ["baz"] = Err e
     /\ display_error e
        = "Command content invalid - Expected key 'command' but it is not present")
  /\ (exists e, get_command sample_read (sample_parse sample_root) "cmd.toml" ["foo"] = Err e
     /\ display_error e
        = "Command content invalid - Expected key 'command' to be String but got "
          ++ value_as_name (VTable [])
     /\ value_as_name (VTable []) <> "String")
  /\ (exists e, get_command sample_read (sample_parse sample_root) "cmd.toml"
                 (["foo"] ++ ["qux"]) = Err e
     /\ display_error e
        = "Command content invalid - Expected key 'qux' to be Table but got "
          ++ value_as_name (VString "quux")
     /\ value_as_name (VString "quux") <> "Table").
Proof.
  destruct (get_command_error_messages sample_read (sample_parse sample_root) "cmd.toml"
              "" sample_root eq_refl eq_refl) as [Ha [Hb Hc]].
  split; [exact (Ha ["baz"] [] eq_refl eq_refl)|].
  split; [exact (Hb ["foo"] _ (VTable []) eq_refl eq_refl eq_refl)|].
  exact (Hc ["foo"] _ "qux" (VString "quux") [] eq_refl eq_refl
            (fun sub H => ltac:(discriminate H))).
Defined.
